(** * CrossCompileCppExample: the utilities header and the demo driver

    A shallow embedding of [include/utils.hpp] (the result-pair number
    parser, its accessors and the generic [Container]) and of
    [src/main.cpp] (the [ModernCppDemo] class, [print_info] and [main]
    with what they write to [std::cout]), with the properties the
    specification states about them and further ones read off the code.

    Conventions.
    - [std::string] is [string]; a [char] is an [ascii].
    - [int] and [long] values are [Z]; the bounds of the two types are
      written out ([INT_MIN], [INT_MAX], [LONG_MIN], [LONG_MAX]).
    - [size_t] values are only ever lengths of, and positions in, a
      sequence held in memory, so they are [nat]: none of the arithmetic
      on them in the source can reach the wrap-around of the type.
    - C++ exceptions are values: a throwing function returns an [outcome].
    - a non-const method is a computation in the state monad [State] over
      the object; a const method is a function of the object, run in the
      monad with [const_call]. *)

From Stdlib Require Import ZArith NArith Arith List Ascii String Bool Lia.
From Stdlib Require Import Decimal DecimalString.
Import ListNotations.

Local Open Scope string_scope.
Local Open Scope Z_scope.

(** ** Exceptions and the outcome of a call that may throw *)

(** The two [std::logic_error]s that [std::stoi] throws, and
    [std::runtime_error], which [get_value] throws. *)
Inductive logic_error : Type :=
| invalid_argument (what : string)
| out_of_range (what : string).

Inductive runtime_error : Type :=
| RuntimeError (what : string).

(** A call either returns a value or throws an exception of type [E]. *)
Inductive outcome (E A : Type) : Type :=
| Returns (a : A)
| Throws (e : E).

Arguments Returns {E A} a.
Arguments Throws {E A} e.

(** ** The C and C++ library functions that [parse_number] calls

    [std::stoi (str, &pos)] is specified as a call of
    [std::strtol (str.c_str (), &end, 10)]; it throws [invalid_argument]
    when no conversion was performed, [out_of_range] when [strtol] reported
    [ERANGE] or the [long] does not fit an [int], and otherwise stores
    [end - str.c_str ()] in [pos] and returns the value. *)

Module Cxx.

(** The targets differ in the width of [long]; [int] has 32 bits on
    all of them. *)
Inductive data_model : Type := ILP32 | LLP64 | LP64.

Definition int_bits : Z := 32.

Definition long_bits (m : data_model) : Z :=
  match m with
  | ILP32 | LLP64 => 32
  | LP64 => 64
  end.

Definition INT_MAX : Z := 2 ^ (int_bits - 1) - 1.
Definition INT_MIN : Z := - 2 ^ (int_bits - 1).
Definition LONG_MAX (m : data_model) : Z := 2 ^ (long_bits m - 1) - 1.
Definition LONG_MIN (m : data_model) : Z := - 2 ^ (long_bits m - 1).

(** [isspace] in the "C" locale: space, and the controls
    [\t \n \v \f \r] (codes 9 to 13). *)
Definition isspace (c : ascii) : bool :=
  let n := N_of_ascii c in
  ((n =? 32) || ((9 <=? n) && (n <=? 13)))%N.

Definition isdigit (c : ascii) : bool :=
  let n := N_of_ascii c in
  ((48 <=? n) && (n <=? 57))%N.

Definition digit_value (c : ascii) : Z :=
  Z.of_N (N_of_ascii c) - 48.

(** The white space [strtol] skips first: how many characters, and
    what is left. *)
Fixpoint skip_space (s : string) : nat * string :=
  match s with
  | String c s' =>
      if isspace c
      then let '(n, rest) := skip_space s' in (S n, rest)
      else (O, s)
  | EmptyString => (O, s)
  end.

(** The optional sign: is it a minus, how many characters, what is left. *)
Definition scan_sign (s : string) : bool * nat * string :=
  match s with
  | String c s' =>
      if (c =? "-")%char then (true, 1%nat, s')
      else if (c =? "+")%char then (false, 1%nat, s')
      else (false, O, s)
  | EmptyString => (false, O, s)
  end.

(** The decimal digits, read left to right: [acc] is the value of the
    [n] digits read so far. *)
Fixpoint scan_digits (acc : Z) (n : nat) (s : string) : Z * nat :=
  match s with
  | String c s' =>
      if isdigit c
      then scan_digits (acc * 10 + digit_value c) (S n) s'
      else (acc, n)
  | EmptyString => (acc, n)
  end.

Record strtol_result : Type := {
  value : Z;        (* the [long] returned *)
  endpos : nat;     (* [endptr - nptr] *)
  erange : bool     (* [errno == ERANGE] *)
}.

(** [strtol (nptr, &endptr, 10)]. With no digit after the optional
    white space and sign nothing is converted: the value is 0 and
    [endptr] is [nptr]. A value outside [long] is replaced by the
    nearest bound and [errno] is set; [endptr] is past the last digit
    all the same. *)
Definition strtol (m : data_model) (nptr : string) : strtol_result :=
  let '(nspace, s1) := skip_space nptr in
  let '(neg, nsign, s2) := scan_sign s1 in
  let '(magnitude, ndigits) := scan_digits 0 O s2 in
  match ndigits with
  | O => {| value := 0; endpos := O; erange := false |}
  | S _ =>
      let v := if neg then - magnitude else magnitude in
      let e := (nspace + nsign + ndigits)%nat in
      if LONG_MAX m <? v
      then {| value := LONG_MAX m; endpos := e; erange := true |}
      else if v <? LONG_MIN m
      then {| value := LONG_MIN m; endpos := e; erange := true |}
      else {| value := v; endpos := e; erange := false |}
  end.

(** [std::stoi (str, &pos)]: the value and the position stored in [pos]. *)
Definition stoi (m : data_model) (str : string)
  : outcome logic_error (Z * nat) :=
  let r := strtol m str in
  if (endpos r =? 0)%nat
  then Throws (invalid_argument "stoi")
  else if erange r || (value r <? INT_MIN) || (INT_MAX <? value r)
  then Throws (out_of_range "stoi")
  else Returns (value r, endpos r).

End Cxx.

Import Cxx.

(** ** [namespace utils]: the number parser *)

(** [using NumberResult = std::pair<int, std::string>]: the result and the
    error message. *)
Definition NumberResult : Type := (Z * string)%type.

(** The [try] block with its two handlers: between them they catch
    everything [stoi] throws, so [parse_number] itself never throws. *)
Definition parse_number (m : data_model) (input : string) : NumberResult :=
  match stoi m input with
  | Returns (result, pos) =>
      if negb (pos =? String.length input)%nat
      then (0, "Not all characters were used in conversion")
      else (result, "")
  | Throws (invalid_argument _) => (0, "Invalid argument")
  | Throws (out_of_range _) => (0, "Out of range")
  end.

Definition empty (s : string) : bool :=
  match s with
  | EmptyString => true
  | String _ _ => false
  end.

Definition has_error (result : NumberResult) : bool :=
  negb (empty (snd result)).

Definition get_error (result : NumberResult) : string :=
  snd result.

Definition get_value (result : NumberResult) : outcome runtime_error Z :=
  if has_error result
  then Throws (RuntimeError (snd result))
  else Returns (fst result).

Definition get_compile_time_value : Z := 42.
Definition get_runtime_value : Z := 43.

(** ** Methods as state computations *)

Definition State (S A : Type) : Type := S -> A * S.

Definition ret {S A : Type} (a : A) : State S A :=
  fun s => (a, s).

Definition bind {S A B : Type} (c : State S A) (k : A -> State S B)
  : State S B :=
  fun s => let '(a, s') := c s in k a s'.

(** A const method reads the object and leaves it as it is. *)
Definition const_call {S A : Type} (f : S -> A) : State S A :=
  fun s => (f s, s).

Declare Scope state_scope.
Delimit Scope state_scope with state.
Notation "x <- c ;; k" := (bind c (fun x => k))
  (at level 61, c at next level, right associativity) : state_scope.
Notation "c ;;; k" := (bind c (fun _ => k))
  (at level 61, right associativity) : state_scope.

(** ** [template <typename T> class Container] *)

(** What the template asks of [T]: [operator==], used by [contains]. *)
Class EqualityComparable (T : Type) : Type := {
  equal : T -> T -> bool
}.

#[export] Instance string_EqualityComparable : EqualityComparable string :=
  {| equal := String.eqb |}.

#[export] Instance int_EqualityComparable : EqualityComparable Z :=
  {| equal := Z.eqb |}.

Module Container.
Section WithElement.

Context {T : Type} `{EqualityComparable T}.

(** The object: its one member, the vector [data]. *)
Record t : Type := Make { data : list T }.

(** A default-constructed container. *)
Definition new : t := Make [].

Definition get_data (c : t) : list T := data c.

(** [data.push_back (std::move (value))]. *)
Definition add (value : T) : State t unit :=
  fun c => (tt, Make (data c ++ [value])).

(** The loop of [contains], entered with index [i] and the elements
    [data[i]], [data[i+1]], ... still to visit. *)
Fixpoint contains_loop (i : nat) (rest : list T) (value : T) : bool * nat :=
  match rest with
  | x :: rest' =>
      if equal x value then (true, i)
      else contains_loop (S i) rest' value
  | [] => (false, O)
  end.

Definition contains (value : T) (c : t) : bool * nat :=
  contains_loop O (data c) value.

(** The container after a sequence of [add] calls on a new one. *)
Definition after_adds (values : list T) : t :=
  fold_left (fun c v => snd (add v c)) values new.

(** [i] is the smallest index of [l] whose element compares equal to
    [value]. *)
Definition first_equal_at (l : list T) (value : T) (i : nat) : Prop :=
  (exists x, nth_error l i = Some x /\ equal x value = true) /\
  (forall j y, (j < i)%nat -> nth_error l j = Some y -> equal y value = false).

(** No element of [l] compares equal to [value]. *)
Definition none_equal (l : list T) (value : T) : Prop :=
  forall x, In x l -> equal x value = false.

End WithElement.
Arguments t T : clear implicits.
End Container.

(** ** [class ModernCppDemo] of the driver *)

Module ModernCppDemo.

Record t : Type := Make { data : list string }.

(** The constructor from an initializer list. *)
Definition init (l : list string) : t := Make l.

(** The default constructor delegates with an empty list. *)
Definition new : t := init [].

Definition size (d : t) : nat := List.length (data d).

(** [std::find (first, last, item)] as the distance of the iterator it
    returns from [first]: the position of the first element equal to
    [item], and the length of the range when there is none. *)
Fixpoint find (l : list string) (item : string) : nat :=
  match l with
  | x :: l' => if String.eqb x item then O else S (find l' item)
  | [] => O
  end.

(** [std::transform] over the whole vector, written back in place. *)
Definition transform_all (prefix : string) : State t unit :=
  fun d => (tt, Make (map (fun item => prefix ++ item) (data d))).

Definition add_if_not_exists (item : string) : State t (nat * bool) :=
  fun d =>
    let it := find (data d) item in
    if (it =? List.length (data d))%nat
    then
      let d' := Make (data d ++ [item]) in
      (((List.length (data d') - 1)%nat, true), d')
    else ((it, false), d).

(** [std::nullopt] is [None]. *)
Definition get_at (index : nat) (d : t) : option string :=
  if (index <? List.length (data d))%nat
  then Some (nth index (data d) "")
  else None.

(** The calls of [main] on the demo object, the output left out, with
    a second [add_if_not_exists] of the same item after the first. *)
Definition demo : t := init ["apple"; "banana"; "cherry"].

Definition scenario
  : State t ((nat * bool) * (nat * bool) * list string
             * option string * option string) :=
  (first <- add_if_not_exists "date" ;;
   second <- add_if_not_exists "date" ;;
   transform_all "fruit: " ;;;
   items <- const_call data ;;
   item <- const_call (get_at 1) ;;
   nonexistent <- const_call (get_at 10) ;;
   ret (first, second, items, item, nonexistent))%state.

End ModernCppDemo.

(** ** Numerals, as the specification speaks of them

    An input "consisting of an optional sign followed by one or more
    decimal digits", possibly after white space and before other
    characters, and the integer it denotes. These are the vocabulary of
    the statements below, not part of the program. *)

Inductive sign : Type := NoSign | Plus | Minus.

Definition sign_text (sg : sign) : string :=
  match sg with
  | NoSign => ""
  | Plus => "+"
  | Minus => "-"
  end.

Definition signed (sg : sign) (n : Z) : Z :=
  match sg with
  | Minus => - n
  | NoSign | Plus => n
  end.

Fixpoint all_digits (s : string) : bool :=
  match s with
  | String c s' => isdigit c && all_digits s'
  | EmptyString => true
  end.

Fixpoint all_spaces (s : string) : bool :=
  match s with
  | String c s' => isspace c && all_spaces s'
  | EmptyString => true
  end.

(** The value of a digit string in base ten, most significant digit
    first: each digit weighted by the power of ten of its place. *)
Fixpoint numeral_value (ds : string) : Z :=
  match ds with
  | String c ds' =>
      digit_value c * 10 ^ Z.of_nat (String.length ds') + numeral_value ds'
  | EmptyString => 0
  end.

(** What may follow the digits of a numeral without being one of them:
    nothing, or text that does not start with a digit. *)
Definition not_a_digit_next (rest : string) : bool :=
  match rest with
  | String c _ => negb (isdigit c)
  | EmptyString => true
  end.

(** At least one trailing character that the conversion leaves
    unconsumed: [rest] is not empty and does not go on with a digit. *)
Definition unconsumed_trailing (rest : string) : bool :=
  negb (empty rest) && not_a_digit_next rest.

Definition in_int_range (v : Z) : Prop := INT_MIN <= v <= INT_MAX.

(** An input that has a numeric prefix (optional sign, one or more
    digits) followed by at least one unconsumed trailing character. *)
Definition numeric_prefix_then_trailing (input : string) : Prop :=
  exists sg ds rest,
    input = sign_text sg ++ ds ++ rest /\
    ds <> "" /\ all_digits ds = true /\ unconsumed_trailing rest = true.

(** The three messages of a failed parse. *)
Definition error_vocabulary : list string :=
  ["Invalid argument"; "Out of range";
   "Not all characters were used in conversion"].

(** ** What the scans of [strtol] leave to tell apart

    More vocabulary for the statements on inputs that are not
    numerals. *)

(** Does the text hold a decimal digit anywhere? *)
Fixpoint has_digit (s : string) : bool :=
  match s with
  | String c s' => isdigit c || has_digit s'
  | EmptyString => false
  end.

(** [t] is what follows the optional sign [sg] once the white space has
    been skipped: when no sign was read, [t] begins with neither white
    space nor a sign. *)
Definition after_sign (sg : sign) (t : string) : bool :=
  match sg, t with
  | NoSign, String c _ =>
      negb (isspace c) && negb (c =? "-")%char && negb (c =? "+")%char
  | _, _ => true
  end.

(** ** The output stream and the printing functions of the driver *)

Module Driver.

(** [std::cout], as the text written to it so far. *)
Definition ostream : Type := string.

(** [std::cout << s] for a string. *)
Definition put (s : string) : State ostream unit :=
  fun out => (tt, out ++ s).

(** The line feed of the literals that end in a backslash-n. *)
Definition nl : string := String "010"%char EmptyString.

(** What [operator<<] writes for a [size_t]: its decimal digits. *)
Definition decimal (n : nat) : string :=
  NilEmpty.string_of_uint (Nat.to_uint n).

(** The loop of [print_info], entered with index [i] and the arguments
    [args[i]], [args[i+1]], ... still to print. *)
Fixpoint print_info_loop (i : nat) (rest : list string)
  : State ostream unit :=
  match rest with
  | arg :: rest' =>
      (put "Argument " ;;; put (decimal i) ;;; put ": " ;;; put arg ;;;
       put nl ;;;
       print_info_loop (S i) rest')%state
  | [] => ret tt
  end.

Definition print_info (args : list string) : State ostream unit :=
  (put "Running with " ;;; put (decimal (List.length args)) ;;;
   put (" arguments" ++ nl) ;;;
   print_info_loop O args)%state.

(** The range-based loop of [ModernCppDemo::print] over the items. *)
Fixpoint print_items (items : list string) : State ostream unit :=
  match items with
  | item :: items' => (put item ;;; put nl ;;; print_items items')%state
  | [] => ret tt
  end.

(** [ModernCppDemo::print], a const method: it writes and leaves the
    object alone. *)
Definition print (d : ModernCppDemo.t) : State ostream unit :=
  print_items (ModernCppDemo.data d).

(** The first loop of [main]: [argv[0]], ..., [argv[argc - 1]] pushed
    one after the other onto [args]. *)
Definition collect_args (argv : list string) : list string :=
  fold_left (fun args a => (args ++ [a])%list) argv [].

(** [main], given the [argc] strings of [argv]: what it writes, and the
    exit status it returns. The demo object is a local of [main]; the
    calls on it are run in sequence on its successive states. *)
Definition main (argv : list string) : State ostream Z :=
  (put ("Hello from Modern C++ Cross-Compilation Example!" ++ nl) ;;;
   let args := collect_args argv in
   print_info args ;;;
   let demo := ModernCppDemo.init ["apple"; "banana"; "cherry"] in
   put (nl ++ "Original items:" ++ nl) ;;;
   print demo ;;;
   let '((index, added), demo) := ModernCppDemo.add_if_not_exists "date" demo in
   put (nl ++ "Added 'date' at index ") ;;; put (decimal index) ;;;
   put ", newly added: " ;;; put (if added then "yes" else "no") ;;;
   put nl ;;;
   let '(_, demo) := ModernCppDemo.transform_all "fruit: " demo in
   put (nl ++ "After transformation:" ++ nl) ;;;
   print demo ;;;
   let item := ModernCppDemo.get_at 1 demo in
   match item with
   | Some text => put (nl ++ "Item at index 1: ") ;;; put text ;;; put nl
   | None => ret tt
   end ;;;
   let nonexistent := ModernCppDemo.get_at 10 demo in
   put "Item at index 10 exists: " ;;;
   put (match nonexistent with Some _ => "yes" | None => "no" end) ;;;
   put nl ;;;
   ret 0)%state.

(** The text [print_info] writes, in closed form: the count, then one
    numbered line for each argument. *)
Definition argument_line (i : nat) (arg : string) : string :=
  "Argument " ++ decimal i ++ ": " ++ arg ++ nl.

Fixpoint argument_lines (i : nat) (args : list string) : string :=
  match args with
  | arg :: args' => argument_line i arg ++ argument_lines (S i) args'
  | [] => ""
  end.

Definition print_info_text (args : list string) : string :=
  "Running with " ++ decimal (List.length args) ++ " arguments" ++ nl
  ++ argument_lines O args.

(** The text [print] writes: each item on a line of its own. *)
Fixpoint item_lines (items : list string) : string :=
  match items with
  | item :: items' => item ++ nl ++ item_lines items'
  | [] => ""
  end.

(** What [main] writes after the lines of [print_info]. *)
Definition demo_transcript : string :=
"
Original items:
apple
banana
cherry

Added 'date' at index 3, newly added: yes

After transformation:
fruit: apple
fruit: banana
fruit: cherry
fruit: date

Item at index 1: fruit: banana
Item at index 10 exists: no
".

(** [c] returns [r] and appends [text] to the stream, whatever was
    written before. *)
Definition writes {A : Type} (c : State ostream A) (r : A) (text : string)
  : Prop :=
  forall out, c out = (r, out ++ text).

End Driver.

(** ** Sequences of calls on the demo object *)

(** [add_if_not_exists] called on each of [items] in turn. *)
Definition add_all (items : list string) (d : ModernCppDemo.t)
  : ModernCppDemo.t :=
  fold_left (fun d item => snd (ModernCppDemo.add_if_not_exists item d))
            items d.

(** * Properties *)

(** ** Strings and characters *)

Lemma string_length_app (s t : string) :
  String.length (s ++ t) = (String.length s + String.length t)%nat.
Proof.
  induction s as [| c s IH]; simpl; [reflexivity | now rewrite IH].
Qed.

Lemma empty_true_iff (s : string) : empty s = true <-> s = "".
Proof.
  destruct s; simpl; split; intros E; try reflexivity; discriminate E.
Qed.

Lemma digit_value_range (c : ascii) :
  isdigit c = true -> 0 <= digit_value c <= 9.
Proof.
  unfold isdigit, digit_value; intros E.
  apply andb_true_iff in E as [Lo Hi].
  apply N.leb_le in Lo, Hi. lia.
Qed.

Lemma digit_not_space (c : ascii) : isdigit c = true -> isspace c = false.
Proof.
  unfold isdigit, isspace; intros E.
  apply andb_true_iff in E as [Lo _]. apply N.leb_le in Lo.
  apply orb_false_iff; split.
  - apply N.eqb_neq. lia.
  - apply andb_false_iff; right. apply N.leb_gt. lia.
Qed.

Lemma digit_not_sign (c : ascii) :
  isdigit c = true -> (c =? "-")%char = false /\ (c =? "+")%char = false.
Proof.
  intros E; split; apply Ascii.eqb_neq; intros ->; discriminate E.
Qed.

Lemma numeral_value_nonneg (ds : string) :
  all_digits ds = true -> 0 <= numeral_value ds.
Proof.
  induction ds as [| c ds IH]; simpl; intros E; [lia |].
  apply andb_true_iff in E as [Ec Eds].
  pose proof (digit_value_range c Ec).
  specialize (IH Eds).
  assert (0 < 10 ^ Z.of_nat (String.length ds)) by (apply Z.pow_pos_nonneg; lia).
  nia.
Qed.

(** ** The three scans of [strtol] on a numeral *)

Lemma skip_space_stops (s : string) :
  match s with String c _ => isspace c = false | EmptyString => True end ->
  skip_space s = (O, s).
Proof.
  destruct s as [| c s]; simpl; intros E; [reflexivity | now rewrite E].
Qed.

Lemma skip_space_app (ws t : string) :
  all_spaces ws = true ->
  skip_space t = (O, t) ->
  skip_space (ws ++ t) = (String.length ws, t).
Proof.
  intros Ews Et.
  induction ws as [| c ws IH]; simpl in *; [exact Et |].
  apply andb_true_iff in Ews as [Ec Ews].
  rewrite Ec, (IH Ews). reflexivity.
Qed.

Lemma scan_sign_text (sg : sign) (c : ascii) (s : string) :
  isdigit c = true ->
  scan_sign (sign_text sg ++ String c s) =
  (match sg with Minus => true | _ => false end,
   String.length (sign_text sg), String c s).
Proof.
  intros Ec. destruct sg; simpl; try reflexivity.
  destruct (digit_not_sign c Ec) as [-> ->]. reflexivity.
Qed.

Lemma scan_digits_app (ds rest : string) :
  all_digits ds = true ->
  not_a_digit_next rest = true ->
  forall acc n,
    scan_digits acc n (ds ++ rest) =
    (acc * 10 ^ Z.of_nat (String.length ds) + numeral_value ds,
     (n + String.length ds)%nat).
Proof.
  intros Eds Erest.
  induction ds as [| c ds IH]; intros acc n.
  - simpl. replace (acc * 1 + 0) with acc by lia. rewrite Nat.add_0_r.
    destruct rest as [| c rest]; simpl in *; [reflexivity |].
    apply negb_true_iff in Erest. now rewrite Erest.
  - simpl in Eds. apply andb_true_iff in Eds as [Ec Eds].
    cbn [append scan_digits numeral_value String.length]. rewrite Ec.
    rewrite (IH Eds). f_equal; [| lia].
    rewrite Nat2Z.inj_succ, Z.pow_succ_r by lia. ring.
Qed.

(** ** The bounds of [int] and [long] *)

Lemma INT_MAX_eq : INT_MAX = 2147483647.
Proof. reflexivity. Qed.

Lemma INT_MIN_eq : INT_MIN = -2147483648.
Proof. reflexivity. Qed.

Lemma int_within_long (m : data_model) :
  LONG_MIN m <= INT_MIN /\ INT_MAX <= LONG_MAX m.
Proof.
  destruct m; split; vm_compute; discriminate.
Qed.

(** ** [strtol] and [stoi] on a numeral

    The input is white space, an optional sign, at least one digit, and
    a rest that does not go on with a digit. *)
Section Numeral.

Variable m : data_model.
Variables (ws : string) (sg : sign) (ds rest : string).
Hypothesis ws_spaces : all_spaces ws = true.
Hypothesis ds_digits : all_digits ds = true.
Hypothesis ds_nonempty : ds <> "".
Hypothesis rest_stops : not_a_digit_next rest = true.

Let input : string := ws ++ sign_text sg ++ ds ++ rest.
Let v : Z := signed sg (numeral_value ds).
Let consumed : nat :=
  (String.length ws + String.length (sign_text sg) + String.length ds)%nat.

Lemma consumed_pos : consumed <> O.
Proof.
  unfold consumed. destruct ds; [congruence | simpl; lia].
Qed.

Lemma strtol_numeral :
  strtol m input =
  if LONG_MAX m <? v
  then {| value := LONG_MAX m; endpos := consumed; erange := true |}
  else if v <? LONG_MIN m
  then {| value := LONG_MIN m; endpos := consumed; erange := true |}
  else {| value := v; endpos := consumed; erange := false |}.
Proof.
  unfold strtol, input.
  destruct ds as [| c ds'] eqn:Eds; [congruence |].
  pose proof ds_digits as Ed. simpl in Ed.
  apply andb_true_iff in Ed as [Ec Ed'].
  rewrite skip_space_app; [| exact ws_spaces |].
  2:{ apply skip_space_stops. destruct sg; simpl; try reflexivity.
      now apply digit_not_space. }
  cbn [append]. rewrite (scan_sign_text sg c _ Ec).
  change (String c (ds' ++ rest)) with (String c ds' ++ rest).
  rewrite (scan_digits_app _ _ ds_digits rest_stops).
  cbn [String.length Nat.add]. rewrite Z.mul_0_l, Z.add_0_l.
  unfold v, consumed. cbn [String.length].
  destruct sg; reflexivity.
Qed.

Lemma stoi_numeral_in_range :
  in_int_range v -> stoi m input = Returns (v, consumed).
Proof.
  intros [Lo Hi]. unfold stoi. rewrite strtol_numeral.
  destruct (int_within_long m) as [Lmin Lmax].
  destruct (Z.ltb_spec (LONG_MAX m) v); [lia |].
  destruct (Z.ltb_spec v (LONG_MIN m)); [lia |].
  cbn [endpos erange value].
  destruct (Nat.eqb_spec consumed 0) as [E | _];
    [now apply consumed_pos in E |].
  destruct (Z.ltb_spec v INT_MIN); [lia |].
  destruct (Z.ltb_spec INT_MAX v); [lia |].
  reflexivity.
Qed.

Lemma stoi_numeral_out_of_range :
  ~ in_int_range v -> stoi m input = Throws (out_of_range "stoi").
Proof.
  unfold in_int_range; intros Out. unfold stoi. rewrite strtol_numeral.
  destruct (Z.ltb_spec (LONG_MAX m) v);
    [| destruct (Z.ltb_spec v (LONG_MIN m))];
    cbn [endpos erange value];
    (destruct (Nat.eqb_spec consumed 0) as [E | _];
     [now apply consumed_pos in E |]);
    try reflexivity.
  destruct (Z.ltb_spec v INT_MIN); [reflexivity |].
  destruct (Z.ltb_spec INT_MAX v); [reflexivity | lia].
Qed.

Lemma length_input :
  String.length input = (consumed + String.length rest)%nat.
Proof.
  unfold input, consumed. rewrite !string_length_app. lia.
Qed.

(** The three results [parse_number] has on such an input. *)
Lemma parse_number_numeral :
  parse_number m input =
  if Z.leb INT_MIN v && Z.leb v INT_MAX
  then if empty rest
       then (v, "")
       else (0, "Not all characters were used in conversion")
  else (0, "Out of range").
Proof.
  unfold parse_number.
  destruct (Z.leb_spec INT_MIN v) as [Lo | Lo];
    [destruct (Z.leb_spec v INT_MAX) as [Hi | Hi] |]; cbn [andb].
  - rewrite stoi_numeral_in_range by (split; assumption).
    rewrite length_input.
    destruct rest as [| c r]; cbn [empty String.length].
    + now rewrite Nat.add_0_r, Nat.eqb_refl.
    + destruct (Nat.eqb_spec consumed (consumed + S (String.length r)));
        [lia | reflexivity].
  - rewrite stoi_numeral_out_of_range; [reflexivity |].
    unfold in_int_range; lia.
  - rewrite stoi_numeral_out_of_range; [reflexivity |].
    unfold in_int_range; lia.
Qed.

End Numeral.

Lemma append_empty_r (s : string) : s ++ "" = s.
Proof.
  induction s as [| c s IH]; simpl; [reflexivity | now rewrite IH].
Qed.

Lemma unconsumed_trailing_inv (rest : string) :
  unconsumed_trailing rest = true ->
  empty rest = false /\ not_a_digit_next rest = true.
Proof.
  unfold unconsumed_trailing; intros E.
  apply andb_true_iff in E as [E1 E2].
  apply negb_true_iff in E1. now split.
Qed.

Lemma in_int_range_leb (v : Z) :
  in_int_range v <-> Z.leb INT_MIN v && Z.leb v INT_MAX = true.
Proof.
  unfold in_int_range. rewrite andb_true_iff, !Z.leb_le. reflexivity.
Qed.

(** ** The number parser *)

(** C2. An input that is an optional sign followed by one or more decimal
    digits, and whose value fits an [int], parses to exactly that value
    with an empty error text. *)
Theorem parse_number_sign_digits (m : data_model) (sg : sign) (ds : string) :
  ds <> "" ->
  all_digits ds = true ->
  in_int_range (signed sg (numeral_value ds)) ->
  parse_number m (sign_text sg ++ ds) = (signed sg (numeral_value ds), "").
Proof.
  intros Hne Hds Hrange.
  pose proof (parse_number_numeral m "" sg ds "" eq_refl Hds Hne eq_refl) as P.
  cbn [append empty] in P. rewrite append_empty_r in P.
  apply in_int_range_leb in Hrange. now rewrite Hrange in P.
Qed.

Lemma parse_number_sign_digits_witness :
  ("2147483648" <> "" /\ all_digits "2147483648" = true /\
   in_int_range (-2147483648)) /\
  parse_number LP64 "-2147483648" = (-2147483648, "").
Proof.
  assert (Hne : "2147483648" <> "") by discriminate.
  assert (Hds : all_digits "2147483648" = true) by reflexivity.
  assert (Hrange : in_int_range (signed Minus (numeral_value "2147483648")))
    by (vm_compute; split; discriminate).
  split; [split; [exact Hne | split; [exact Hds | exact Hrange]] |].
  exact (parse_number_sign_digits LP64 Minus "2147483648" Hne Hds Hrange).
Defined.

(** C3, as stated, fails: a numeric prefix whose value does not fit an
    [int], followed by trailing characters, is reported as out of range,
    because [stoi] throws before the position is compared. *)
Lemma parse_number_trailing_counterexample :
  numeric_prefix_then_trailing "99999999999abc" /\
  parse_number LP64 "99999999999abc" = (0, "Out of range") /\
  snd (parse_number LP64 "99999999999abc")
    <> "Not all characters were used in conversion".
Proof.
  split; [| split].
  - exists NoSign, "99999999999", "abc". repeat split. discriminate.
  - reflexivity.
  - discriminate.
Qed.

(** C3, amended. An input that has a numeric prefix followed by at
    least one unconsumed trailing character fails with the value zero:
    with the message "Not all characters were used in conversion" when
    the value of the prefix fits an [int], and with the message "Out of
    range" when it does not. *)
Theorem parse_number_trailing
    (m : data_model) (sg : sign) (ds rest : string) :
  ds <> "" ->
  all_digits ds = true ->
  unconsumed_trailing rest = true ->
  (in_int_range (signed sg (numeral_value ds)) ->
   parse_number m (sign_text sg ++ ds ++ rest) =
   (0, "Not all characters were used in conversion"))
  /\
  (~ in_int_range (signed sg (numeral_value ds)) ->
   parse_number m (sign_text sg ++ ds ++ rest) = (0, "Out of range")).
Proof.
  intros Hne Hds Hrest.
  apply unconsumed_trailing_inv in Hrest as [Hrest Hstop].
  pose proof (parse_number_numeral m "" sg ds rest eq_refl Hds Hne Hstop) as P.
  cbn [append] in P. rewrite Hrest in P.
  split.
  - intros Hrange. apply in_int_range_leb in Hrange. now rewrite Hrange in P.
  - intros Hout.
    destruct (Z.leb INT_MIN (signed sg (numeral_value ds))
              && Z.leb (signed sg (numeral_value ds)) INT_MAX) eqn:E;
      [| exact P].
    apply in_int_range_leb in E. contradiction.
Qed.

Lemma parse_number_trailing_witness :
  (("123" <> "" /\ all_digits "123" = true /\
    unconsumed_trailing "abc" = true /\ in_int_range 123) /\
   parse_number LP64 "123abc" =
   (0, "Not all characters were used in conversion"))
  /\
  (("99999999999" <> "" /\ all_digits "99999999999" = true /\
    unconsumed_trailing "abc" = true /\ ~ in_int_range 99999999999) /\
   parse_number LP64 "99999999999abc" = (0, "Out of range")).
Proof.
  assert (Hrest : unconsumed_trailing "abc" = true) by reflexivity.
  split.
  - assert (Hne : "123" <> "") by discriminate.
    assert (Hds : all_digits "123" = true) by reflexivity.
    assert (Hrange : in_int_range (signed NoSign (numeral_value "123")))
      by (vm_compute; split; discriminate).
    split; [repeat split; solve [exact Hne | apply Hrange] |].
    exact (proj1 (parse_number_trailing LP64 NoSign "123" "abc" Hne Hds Hrest)
                 Hrange).
  - assert (Hne : "99999999999" <> "") by discriminate.
    assert (Hds : all_digits "99999999999" = true) by reflexivity.
    assert (Hout : ~ in_int_range (signed NoSign (numeral_value "99999999999"))).
    { intros [_ Hi]. vm_compute in Hi. now apply Hi. }
    split; [repeat split; solve [exact Hne | exact Hout] |].
    exact (proj2 (parse_number_trailing LP64 NoSign "99999999999" "abc"
                    Hne Hds Hrest)
                 Hout).
Defined.

(** C4. An input that denotes an integer (optional sign, one or more
    digits) outside the range of [int] fails with the message "Out of
    range". *)
Theorem parse_number_out_of_range
    (m : data_model) (sg : sign) (ds : string) :
  ds <> "" ->
  all_digits ds = true ->
  ~ in_int_range (signed sg (numeral_value ds)) ->
  parse_number m (sign_text sg ++ ds) = (0, "Out of range").
Proof.
  intros Hne Hds Hout.
  pose proof (parse_number_numeral m "" sg ds "" eq_refl Hds Hne eq_refl) as P.
  cbn [append] in P. rewrite append_empty_r in P.
  destruct (Z.leb INT_MIN (signed sg (numeral_value ds))
            && Z.leb (signed sg (numeral_value ds)) INT_MAX) eqn:E;
    [| exact P].
  apply in_int_range_leb in E. contradiction.
Qed.

Lemma parse_number_out_of_range_witness :
  ("123456789012345678901234567890" <> "" /\
   all_digits "123456789012345678901234567890" = true /\
   ~ in_int_range 123456789012345678901234567890) /\
  parse_number LP64 "123456789012345678901234567890" = (0, "Out of range").
Proof.
  assert (Hne : "123456789012345678901234567890" <> "") by discriminate.
  assert (Hds : all_digits "123456789012345678901234567890" = true)
    by reflexivity.
  assert (Hout : ~ in_int_range
                   (signed NoSign
                      (numeral_value "123456789012345678901234567890"))).
  { intros [_ Hi]. vm_compute in Hi. now apply Hi. }
  split; [split; [exact Hne | split; [exact Hds | exact Hout]] |].
  exact (parse_number_out_of_range LP64 NoSign _ Hne Hds Hout).
Defined.

(** C10. White space before the numeral is skipped and counts as
    consumed: an input made of white-space characters, an optional sign
    and one or more digits, with a value that fits an [int], parses to
    that value with an empty error text. *)
Theorem parse_number_leading_space
    (m : data_model) (ws : string) (sg : sign) (ds : string) :
  all_spaces ws = true ->
  ds <> "" ->
  all_digits ds = true ->
  in_int_range (signed sg (numeral_value ds)) ->
  parse_number m (ws ++ sign_text sg ++ ds) = (signed sg (numeral_value ds), "").
Proof.
  intros Hws Hne Hds Hrange.
  pose proof (parse_number_numeral m ws sg ds "" Hws Hds Hne eq_refl) as P.
  cbn [empty] in P. rewrite append_empty_r in P.
  apply in_int_range_leb in Hrange. now rewrite Hrange in P.
Qed.

Lemma parse_number_leading_space_witness :
  (all_spaces " " = true /\ "42" <> "" /\ all_digits "42" = true /\
   in_int_range 42) /\
  parse_number LP64 " 42" = (42, "").
Proof.
  assert (Hws : all_spaces " " = true) by reflexivity.
  assert (Hne : "42" <> "") by discriminate.
  assert (Hds : all_digits "42" = true) by reflexivity.
  assert (Hrange : in_int_range (signed NoSign (numeral_value "42")))
    by (vm_compute; split; discriminate).
  split; [repeat split; solve [exact Hne | apply Hrange] |].
  exact (parse_number_leading_space LP64 " " NoSign "42" Hws Hne Hds Hrange).
Defined.

(** C8. A result of [parse_number] is of exactly one of two kinds: the
    error text is empty (success), or the error text is not empty
    (failure); and in every failure the stored value is zero. *)
Theorem parse_number_result_invariant (m : data_model) (input : string) :
  (get_error (parse_number m input) = "" /\
   has_error (parse_number m input) = false)
  \/
  (get_error (parse_number m input) <> "" /\
   has_error (parse_number m input) = true /\
   fst (parse_number m input) = 0).
Proof.
  unfold parse_number.
  destruct (stoi m input) as [[result pos] | [what | what]].
  - destruct (negb (pos =? String.length input)%nat).
    + right. repeat split. discriminate.
    + left. split; reflexivity.
  - right. repeat split. discriminate.
  - right. repeat split. discriminate.
Qed.

(** The message of a failure is one of the three of the vocabulary, and
    the value of a success fits an [int]. *)
Lemma parse_number_vocabulary (m : data_model) (input : string) :
  has_error (parse_number m input) = true ->
  In (get_error (parse_number m input)) error_vocabulary.
Proof.
  unfold parse_number.
  destruct (stoi m input) as [[result pos] | [what | what]];
    [destruct (negb (pos =? String.length input)%nat) |..];
    cbn; intros E; auto; discriminate E.
Qed.

Lemma parse_number_value_in_range (m : data_model) (input : string) :
  has_error (parse_number m input) = false ->
  in_int_range (fst (parse_number m input)).
Proof.
  unfold parse_number, stoi.
  destruct (endpos (strtol m input) =? 0)%nat; [discriminate |].
  destruct (erange (strtol m input)); cbn [orb]; [discriminate |].
  destruct (Z.ltb_spec (value (strtol m input)) INT_MIN); cbn [orb];
    [discriminate |].
  destruct (Z.ltb_spec INT_MAX (value (strtol m input))); [discriminate |].
  destruct (negb _); [discriminate |].
  intros _. cbn [fst]. unfold in_int_range. lia.
Qed.

(** C5. The accessors of a result: [has_error] is true exactly when the
    error text is not empty; [get_value] returns the stored integer when
    there is no error, and throws (a [runtime_error] carrying the error
    text) instead of returning anything when there is one. [get_error]
    is the stored text. *)
Theorem accessors_contract (r : NumberResult) :
  (has_error r = true <-> snd r <> "") /\
  (has_error r = false -> get_value r = Returns (fst r)) /\
  (has_error r = true ->
     get_value r = Throws (RuntimeError (snd r)) /\
     forall v, get_value r <> Returns v) /\
  get_error r = snd r.
Proof.
  destruct r as [v e]. unfold get_value, has_error, get_error. cbn [fst snd].
  split; [| split; [| split]].
  - destruct e; cbn; split; intros E; congruence.
  - now intros ->.
  - intros ->. split; [reflexivity | discriminate].
  - reflexivity.
Qed.

Example get_value_of_success :
  get_value (parse_number LP64 "42") = Returns 42.
Proof. reflexivity. Qed.

Example get_value_of_failure :
  get_value (parse_number LP64 "abc") =
  Throws (RuntimeError "Invalid argument").
Proof. reflexivity. Qed.

(** ** The container *)

Module ContainerFacts.
Import Container.
Section WithElement.

Context {T : Type} `{EqualityComparable T}.

Lemma data_add (value : T) (c : Container.t T) :
  data (snd (add value c)) = (data c ++ [value])%list.
Proof. reflexivity. Qed.

(** Every sequence is the content of a container after the [add]
    calls that list it, and of no other. *)
Lemma data_fold_add (values : list T) (c : Container.t T) :
  data (fold_left (fun c v => snd (add v c)) values c)
  = (data c ++ values)%list.
Proof.
  revert c. induction values as [| v values IH]; intros c; cbn [fold_left].
  - now rewrite app_nil_r.
  - rewrite IH, data_add, <- app_assoc. reflexivity.
Qed.

Lemma data_after_adds (values : list T) :
  data (after_adds values) = values.
Proof. unfold after_adds. now rewrite data_fold_add. Qed.

Lemma first_equal_at_tail (x : T) (l : list T) (value : T) (k : nat) :
  first_equal_at (x :: l) value (S k) ->
  equal x value = false /\ first_equal_at l value k.
Proof.
  intros [[y [Hy Ey]] Hmin]. split.
  - apply (Hmin O x); [lia | reflexivity].
  - split; [now exists y |].
    intros j z Hj Hz. apply (Hmin (S j) z); [lia | exact Hz].
Qed.

Lemma contains_loop_found (value : T) (rest : list T) :
  forall i k,
    first_equal_at rest value k ->
    contains_loop i rest value = (true, (i + k)%nat).
Proof.
  induction rest as [| x rest IH]; intros i k Hk.
  - destruct Hk as [[y [Hy _]] _]. destruct k; discriminate Hy.
  - destruct k as [| k]; simpl.
    + destruct Hk as [[y [Hy Ey]] _]. injection Hy as ->.
      now rewrite Ey, Nat.add_0_r.
    + apply first_equal_at_tail in Hk as [Ex Hk].
      rewrite Ex, (IH (S i) k Hk). f_equal. lia.
Qed.

Lemma contains_loop_none (value : T) (rest : list T) :
  none_equal rest value ->
  forall i, contains_loop i rest value = (false, O).
Proof.
  induction rest as [| x rest IH]; intros Hnone i; simpl; [reflexivity |].
  rewrite (Hnone x) by now left.
  apply IH. intros y Hy. apply Hnone. now right.
Qed.

(** One of the two cases of the scan always applies. *)
Lemma first_equal_or_none (l : list T) (value : T) :
  (exists i, first_equal_at l value i) \/ none_equal l value.
Proof.
  induction l as [| x l IH].
  - right. intros y [].
  - destruct (equal x value) eqn:Ex.
    + left. exists O. split; [now exists x | intros j y Hj; lia].
    + destruct IH as [[i [[y [Hy Ey]] Hmin]] | Hnone].
      * left. exists (S i). split; [now exists y |].
        intros [| j] z Hj Hz.
        -- injection Hz as <-. exact Ex.
        -- apply (Hmin j z); [lia | exact Hz].
      * right. intros y [<- | Hy]; [exact Ex | now apply Hnone].
Qed.

End WithElement.
End ContainerFacts.

(** C1. On the container reached by any sequence of [add] calls,
    [contains v] returns [(true, i)] for the smallest index [i] whose
    element compares equal to [v] when there is one, and [(false, 0)]
    when no element compares equal to [v]; and the call leaves the
    container as it was. *)
Theorem contains_first_index
    {T : Type} `{EqualityComparable T} (values : list T) (v : T) :
  (forall i,
     Container.first_equal_at (Container.data (Container.after_adds values)) v i ->
     Container.contains v (Container.after_adds values) = (true, i)) /\
  (Container.none_equal (Container.data (Container.after_adds values)) v ->
   Container.contains v (Container.after_adds values) = (false, O)) /\
  snd (const_call (Container.contains v) (Container.after_adds values))
  = Container.after_adds values.
Proof.
  unfold Container.contains. split; [| split].
  - intros i Hi. now apply (ContainerFacts.contains_loop_found v _ O i).
  - intros Hnone. now apply ContainerFacts.contains_loop_none.
  - reflexivity.
Qed.

Lemma contains_first_index_witness :
  Container.contains 3 (Container.after_adds [1; 2; 3; 3]) = (true, 2%nat) /\
  Container.contains 7 (Container.after_adds [1; 2; 3; 3]) = (false, O).
Proof.
  destruct (contains_first_index [1; 2; 3; 3] 3) as [Found _].
  destruct (contains_first_index [1; 2; 3; 3] 7) as [_ [Missing _]].
  split.
  - apply Found. split.
    + exists 3. split; reflexivity.
    + intros [| [| j]] y Hj Hy; try lia; injection Hy as <-; reflexivity.
  - apply Missing. intros x [<- | [<- | [<- | [<- | []]]]]; reflexivity.
Defined.

(** C6. [add v] puts [v] at the end of the sequence: the length grows
    by exactly one, the elements stored before are the first elements
    of the new sequence, unchanged and in their order, and the call
    returns (it has no failing outcome). *)
Theorem add_appends {T : Type} (c : Container.t T) (v : T) :
  Container.data (snd (Container.add v c)) = (Container.data c ++ [v])%list /\
  List.length (Container.data (snd (Container.add v c)))
  = S (List.length (Container.data c)) /\
  firstn (List.length (Container.data c))
         (Container.data (snd (Container.add v c)))
  = Container.data c /\
  nth_error (Container.data (snd (Container.add v c)))
            (List.length (Container.data c)) = Some v /\
  fst (Container.add v c) = tt.
Proof.
  cbn [Container.add snd fst Container.data].
  split; [reflexivity |]. split; [| split; [| split]].
  - rewrite List.length_app. simpl. lia.
  - rewrite firstn_app, Nat.sub_diag, firstn_all. simpl. apply app_nil_r.
  - rewrite nth_error_app2, Nat.sub_diag by lia. reflexivity.
  - reflexivity.
Qed.

(** ** The demo class *)

Module DemoFacts.
Import ModernCppDemo.

Lemma find_le (l : list string) (item : string) :
  (find l item <= List.length l)%nat.
Proof.
  induction l as [| x l IH]; simpl; [lia |].
  destruct (String.eqb x item); lia.
Qed.

(** When [item] occurs, [find] is the position of its first
    occurrence. *)
Lemma find_present (l : list string) (item : string) :
  In item l ->
  (find l item < List.length l)%nat /\
  nth_error l (find l item) = Some item /\
  (forall j, (j < find l item)%nat -> nth_error l j <> Some item).
Proof.
  induction l as [| x l IH]; intros Hin; [destruct Hin |]. simpl.
  destruct (String.eqb_spec x item) as [-> | Hne].
  - repeat split; [lia | intros j Hj; lia].
  - destruct Hin as [Hx | Hin]; [contradiction |].
    destruct (IH Hin) as [Hlt [Hnth Hmin]].
    repeat split; [lia | exact Hnth |].
    intros [| j] Hj; simpl; [congruence | apply Hmin; lia].
Qed.

(** When [item] does not occur, [find] returns the end. *)
Lemma find_absent (l : list string) (item : string) :
  ~ In item l -> find l item = List.length l.
Proof.
  induction l as [| x l IH]; intros Hnot; simpl; [reflexivity |].
  destruct (String.eqb_spec x item) as [-> | _].
  - exfalso. apply Hnot. now left.
  - f_equal. apply IH. intros Hin. apply Hnot. now right.
Qed.

End DemoFacts.

(** C7. From the demo object seeded with apple, banana, cherry: the
    first [add_if_not_exists "date"] returns [(3, true)], a second one
    [(3, false)]; after [transform_all "fruit: "] the list is the four
    prefixed items; [get_at 1] is the present value "fruit: banana" and
    [get_at 10] is absent. *)
Theorem demo_scenario :
  ModernCppDemo.scenario ModernCppDemo.demo =
  (((3%nat, true), (3%nat, false),
    ["fruit: apple"; "fruit: banana"; "fruit: cherry"; "fruit: date"],
    Some "fruit: banana", None),
   ModernCppDemo.Make
     ["fruit: apple"; "fruit: banana"; "fruit: cherry"; "fruit: date"]).
Proof. reflexivity. Qed.

(** The run of [main] itself, which adds "date" once, ends in the same
    list. *)
Example demo_main_run :
  (ModernCppDemo.add_if_not_exists "date" ;;;
   ModernCppDemo.transform_all "fruit: ")%state ModernCppDemo.demo =
  (tt, ModernCppDemo.Make
         ["fruit: apple"; "fruit: banana"; "fruit: cherry"; "fruit: date"]).
Proof. reflexivity. Qed.

(** C9. When [item] is already in the list, [add_if_not_exists item]
    leaves the object as it is (same length, elements and order) and
    returns the index of the first occurrence of [item] with [false];
    when [item] is not in the list, and only then, it is appended, and
    the call returns its new index with [true]. *)
Theorem add_if_not_exists_frame (d : ModernCppDemo.t) (item : string) :
  (In item (ModernCppDemo.data d) ->
   exists i,
     ModernCppDemo.add_if_not_exists item d = ((i, false), d) /\
     nth_error (ModernCppDemo.data d) i = Some item /\
     (forall j, (j < i)%nat -> nth_error (ModernCppDemo.data d) j <> Some item))
  /\
  (~ In item (ModernCppDemo.data d) ->
   ModernCppDemo.add_if_not_exists item d =
   ((List.length (ModernCppDemo.data d), true),
    ModernCppDemo.Make (ModernCppDemo.data d ++ [item])%list)).
Proof.
  unfold ModernCppDemo.add_if_not_exists. split.
  - intros Hin.
    destruct (DemoFacts.find_present _ _ Hin) as [Hlt [Hnth Hmin]].
    exists (ModernCppDemo.find (ModernCppDemo.data d) item).
    destruct (Nat.eqb_spec (ModernCppDemo.find (ModernCppDemo.data d) item)
                (List.length (ModernCppDemo.data d))); [lia |].
    now repeat split.
  - intros Hnot. rewrite (DemoFacts.find_absent _ _ Hnot), Nat.eqb_refl.
    cbn [ModernCppDemo.data]. rewrite List.length_app. simpl.
    repeat f_equal. lia.
Qed.

Lemma add_if_not_exists_frame_witness :
  ModernCppDemo.add_if_not_exists "banana" ModernCppDemo.demo
  = ((1%nat, false), ModernCppDemo.demo) /\
  ModernCppDemo.add_if_not_exists "date" ModernCppDemo.demo
  = ((3%nat, true),
     ModernCppDemo.Make ["apple"; "banana"; "cherry"; "date"]).
Proof.
  destruct (add_if_not_exists_frame ModernCppDemo.demo "banana") as [Present _].
  destruct (add_if_not_exists_frame ModernCppDemo.demo "date") as [_ Absent].
  split.
  - destruct Present as [i [Hcall _]]; [right; left; reflexivity |].
    pose proof Hcall as E. vm_compute in E. injection E as <-. exact Hcall.
  - apply Absent. intros [E | [E | [E | []]]]; discriminate E.
Defined.

(** * Further properties of the code *)

(** ** The shape of every input of the number parser *)

Lemma string_app_assoc (a b c : string) : (a ++ b) ++ c = a ++ b ++ c.
Proof.
  induction a as [| x a IH]; simpl; [reflexivity | now rewrite IH].
Qed.

Lemma skip_space_split (s : string) :
  exists ws,
    s = ws ++ snd (skip_space s) /\
    all_spaces ws = true /\
    skip_space (snd (skip_space s)) = (O, snd (skip_space s)) /\
    match snd (skip_space s) with
    | String c _ => isspace c = false
    | EmptyString => True
    end.
Proof.
  induction s as [| c s [ws [Es [Hws [Hstop Hc]]]]].
  - exists "". repeat split.
  - simpl. destruct (isspace c) eqn:Ec.
    + destruct (skip_space s) as [n t] eqn:Et. cbn [snd] in *.
      exists (String c ws). cbn [append all_spaces].
      rewrite Ec, Hws, <- Es. repeat split; assumption.
    + exists "". cbn [snd append all_spaces skip_space]. rewrite Ec.
      repeat split.
Qed.

Lemma digits_split (s : string) :
  exists ds rest,
    s = ds ++ rest /\ all_digits ds = true /\ not_a_digit_next rest = true.
Proof.
  induction s as [| c s [ds [rest [Es [Hds Hrest]]]]].
  - exists "", "". repeat split.
  - destruct (isdigit c) eqn:Ec.
    + exists (String c ds), rest. cbn [append all_digits].
      rewrite Ec, Hds, <- Es. repeat split. exact Hrest.
    + exists "", (String c s). cbn. rewrite Ec. repeat split.
Qed.

(** Every input is white space, an optional sign, a run of digits that
    may be empty, and a rest that does not go on with a digit. *)
Lemma input_shape (input : string) :
  exists ws sg ds rest,
    input = ws ++ sign_text sg ++ ds ++ rest /\
    all_spaces ws = true /\
    after_sign sg (ds ++ rest) = true /\
    all_digits ds = true /\
    not_a_digit_next rest = true.
Proof.
  destruct (skip_space_split input) as [ws [Es [Hws [_ Hc]]]].
  destruct (snd (skip_space input)) as [| c t].
  - exists ws, NoSign, "", "". repeat split; assumption.
  - destruct (Ascii.eqb_spec c "-") as [-> | Hminus].
    { destruct (digits_split t) as [ds [rest [Et [Hds Hrest]]]].
      exists ws, Minus, ds, rest. rewrite <- Et. repeat split; assumption. }
    destruct (Ascii.eqb_spec c "+") as [-> | Hplus].
    { destruct (digits_split t) as [ds [rest [Et [Hds Hrest]]]].
      exists ws, Plus, ds, rest. rewrite <- Et. repeat split; assumption. }
    destruct (digits_split (String c t)) as [ds [rest [Et [Hds Hrest]]]].
    exists ws, NoSign, ds, rest. rewrite <- Et. cbn [sign_text append after_sign].
    apply Ascii.eqb_neq in Hminus, Hplus. rewrite Hc, Hminus, Hplus.
    repeat split; assumption.
Qed.

Lemma after_sign_skip_space (sg : sign) (t : string) :
  after_sign sg t = true ->
  skip_space (sign_text sg ++ t) = (O, sign_text sg ++ t).
Proof.
  intros Ht. apply skip_space_stops.
  destruct sg; cbn; try reflexivity.
  destruct t as [| c t]; [exact I |]. cbn in Ht.
  apply andb_true_iff in Ht as [Ht _]. apply andb_true_iff in Ht as [Ht _].
  now apply negb_true_iff in Ht.
Qed.

Lemma after_sign_scan_sign (sg : sign) (t : string) :
  after_sign sg t = true ->
  scan_sign (sign_text sg ++ t) =
  (match sg with Minus => true | _ => false end,
   String.length (sign_text sg), t).
Proof.
  intros Ht. destruct sg; cbn; try reflexivity.
  destruct t as [| c t]; [reflexivity |]. cbn in Ht.
  apply andb_true_iff in Ht as [Ht Hplus].
  apply andb_true_iff in Ht as [_ Hminus].
  apply negb_true_iff in Hplus, Hminus. cbn. now rewrite Hminus, Hplus.
Qed.

Lemma scan_digits_stops (rest : string) (acc : Z) (n : nat) :
  not_a_digit_next rest = true -> scan_digits acc n rest = (acc, n).
Proof.
  destruct rest as [| c rest]; cbn; intros E; [reflexivity |].
  apply negb_true_iff in E. now rewrite E.
Qed.

(** No digit where the digits should start: nothing is converted. *)
Lemma parse_number_no_conversion
    (m : data_model) (ws : string) (sg : sign) (rest : string) :
  all_spaces ws = true ->
  after_sign sg rest = true ->
  not_a_digit_next rest = true ->
  parse_number m (ws ++ sign_text sg ++ rest) = (0, "Invalid argument").
Proof.
  intros Hws Hsg Hrest. unfold parse_number, stoi, strtol.
  rewrite (skip_space_app ws _ Hws (after_sign_skip_space sg rest Hsg)).
  rewrite (after_sign_scan_sign sg rest Hsg).
  rewrite (scan_digits_stops rest 0 O Hrest). reflexivity.
Qed.

(** With at least one digit, the result is one of the other three. *)
Lemma parse_number_numeral_not_invalid
    (m : data_model) (ws : string) (sg : sign) (ds rest : string) :
  all_spaces ws = true ->
  all_digits ds = true ->
  ds <> "" ->
  not_a_digit_next rest = true ->
  snd (parse_number m (ws ++ sign_text sg ++ ds ++ rest)) <> "Invalid argument".
Proof.
  intros Hws Hds Hne Hrest.
  rewrite (parse_number_numeral m ws sg ds rest Hws Hds Hne Hrest).
  destruct (Z.leb _ _ && Z.leb _ _); [destruct (empty rest) |]; discriminate.
Qed.

Lemma has_digit_app (s t : string) :
  has_digit (s ++ t) = has_digit s || has_digit t.
Proof.
  induction s as [| c s IH]; cbn; [reflexivity |].
  now rewrite IH, orb_assoc.
Qed.

Lemma all_digits_has_digit (ds : string) :
  ds <> "" -> all_digits ds = true -> has_digit ds = true.
Proof.
  destruct ds as [| c ds]; [congruence |]. cbn. intros _ E.
  apply andb_true_iff in E as [-> _]. reflexivity.
Qed.

(** The two directions of: [parse_number] succeeds with [v] exactly on
    white space, an optional sign and digits that denote [v], an [int]. *)
Lemma parse_number_success_complete
    (m : data_model) (ws : string) (sg : sign) (ds : string) :
  all_spaces ws = true ->
  ds <> "" ->
  all_digits ds = true ->
  in_int_range (signed sg (numeral_value ds)) ->
  parse_number m (ws ++ sign_text sg ++ ds) = (signed sg (numeral_value ds), "").
Proof.
  intros Hws Hne Hds Hrange.
  pose proof (parse_number_numeral m ws sg ds "" Hws Hds Hne eq_refl) as P.
  rewrite append_empty_r in P. apply in_int_range_leb in Hrange.
  now rewrite Hrange in P.
Qed.

Lemma parse_number_success_sound (m : data_model) (input : string) (v : Z) :
  parse_number m input = (v, "") ->
  exists ws sg ds,
    input = ws ++ sign_text sg ++ ds /\
    all_spaces ws = true /\ ds <> "" /\ all_digits ds = true /\
    v = signed sg (numeral_value ds) /\ in_int_range v.
Proof.
  intros Hparse.
  destruct (input_shape input) as [ws [sg [ds [rest [-> [Hws [Hsg [Hds Hrest]]]]]]]].
  destruct (string_dec ds "") as [-> | Hne].
  - cbn [append] in *.
    rewrite (parse_number_no_conversion m ws sg rest Hws Hsg Hrest) in Hparse.
    discriminate Hparse.
  - rewrite (parse_number_numeral m ws sg ds rest Hws Hds Hne Hrest) in Hparse.
    destruct (Z.leb INT_MIN (signed sg (numeral_value ds))
              && Z.leb (signed sg (numeral_value ds)) INT_MAX) eqn:Hrange;
      [| discriminate Hparse].
    destruct (empty rest) eqn:Hempty; [| discriminate Hparse].
    apply empty_true_iff in Hempty as ->. injection Hparse as <-.
    exists ws, sg, ds. rewrite append_empty_r.
    apply in_int_range_leb in Hrange.
    repeat (split; [assumption || reflexivity |]). exact Hrange.
Qed.

Lemma get_value_returns_iff (r : NumberResult) (v : Z) :
  get_value r = Returns v <-> r = (v, "").
Proof.
  destruct r as [x e]. unfold get_value, has_error. cbn [fst snd].
  destruct e; cbn; split; intros E; try discriminate E.
  - now injection E as ->.
  - now injection E as ->.
Qed.

(** ** The number parser on the inputs the claims leave out *)

(** X1. [parse_number] answers "Invalid argument" exactly on the inputs
    that have no digit where the number should start: white space, an
    optional sign, and then the end of the text or a character that is
    not a digit (which, when there is no sign, is not white space or a
    sign either). *)
Theorem parse_number_invalid_argument_iff (m : data_model) (input : string) :
  parse_number m input = (0, "Invalid argument")
  <->
  exists ws sg rest,
    input = ws ++ sign_text sg ++ rest /\
    all_spaces ws = true /\
    after_sign sg rest = true /\
    not_a_digit_next rest = true.
Proof.
  split.
  - intros Hparse.
    destruct (input_shape input)
      as [ws [sg [ds [rest [-> [Hws [Hsg [Hds Hrest]]]]]]]].
    destruct (string_dec ds "") as [-> | Hne].
    + exists ws, sg, rest. now repeat split.
    + exfalso.
      apply (parse_number_numeral_not_invalid m ws sg ds rest Hws Hds Hne Hrest).
      now rewrite Hparse.
  - intros [ws [sg [rest [-> [Hws [Hsg Hrest]]]]]].
    now apply parse_number_no_conversion.
Qed.

Example parse_number_invalid_inputs :
  map (parse_number LP64) [""; "abc"; "   "; "-"; "+-5"; "- 5"; "a1"]
  = repeat (0, "Invalid argument") 7.
Proof. reflexivity. Qed.

(** X2. An input without any decimal digit (the empty text among them)
    fails with the value zero and the message "Invalid argument". *)
Theorem parse_number_no_digit (m : data_model) (input : string) :
  has_digit input = false ->
  parse_number m input = (0, "Invalid argument").
Proof.
  intros Hnone.
  destruct (input_shape input)
    as [ws [sg [ds [rest [-> [Hws [Hsg [Hds Hrest]]]]]]]].
  destruct (string_dec ds "") as [-> | Hne].
  - now apply parse_number_no_conversion.
  - rewrite !has_digit_app, (all_digits_has_digit ds Hne Hds) in Hnone.
    rewrite orb_true_l, !orb_true_r in Hnone. discriminate Hnone.
Qed.

Lemma parse_number_no_digit_witness :
  has_digit "abc" = false /\
  parse_number LP64 "abc" = (0, "Invalid argument").
Proof.
  split; [reflexivity |].
  exact (parse_number_no_digit LP64 "abc" eq_refl).
Defined.

(** X3. Out of range comes first: when the digits after the white space
    and the optional sign denote a value outside [int], the failure is
    "Out of range" whatever follows the digits. *)
Theorem parse_number_out_of_range_first
    (m : data_model) (ws : string) (sg : sign) (ds rest : string) :
  all_spaces ws = true ->
  ds <> "" ->
  all_digits ds = true ->
  not_a_digit_next rest = true ->
  ~ in_int_range (signed sg (numeral_value ds)) ->
  parse_number m (ws ++ sign_text sg ++ ds ++ rest) = (0, "Out of range").
Proof.
  intros Hws Hne Hds Hrest Hout.
  rewrite (parse_number_numeral m ws sg ds rest Hws Hds Hne Hrest).
  destruct (Z.leb INT_MIN (signed sg (numeral_value ds))
            && Z.leb (signed sg (numeral_value ds)) INT_MAX) eqn:E;
    [| reflexivity].
  apply in_int_range_leb in E. contradiction.
Qed.

Lemma parse_number_out_of_range_first_witness :
  (all_spaces " " = true /\ "2147483648" <> "" /\
   all_digits "2147483648" = true /\ not_a_digit_next " apples" = true /\
   ~ in_int_range 2147483648) /\
  parse_number ILP32 " +2147483648 apples" = (0, "Out of range").
Proof.
  assert (Hne : "2147483648" <> "") by discriminate.
  assert (Hout : ~ in_int_range (signed Plus (numeral_value "2147483648"))).
  { intros [_ Hi]. vm_compute in Hi. now apply Hi. }
  split; [repeat split; solve [exact Hne | exact Hout] |].
  exact (parse_number_out_of_range_first
           ILP32 " " Plus "2147483648" " apples" eq_refl Hne eq_refl eq_refl
           Hout).
Defined.

(** X4. [parse_number] succeeds with the value [v] on exactly the
    inputs made of white space, an optional sign and one or more digits
    that denote [v], with [v] in the range of [int]: nothing else is
    accepted, and what is accepted has no other value. *)
Theorem parse_number_success_iff (m : data_model) (input : string) (v : Z) :
  parse_number m input = (v, "")
  <->
  exists ws sg ds,
    input = ws ++ sign_text sg ++ ds /\
    all_spaces ws = true /\ ds <> "" /\ all_digits ds = true /\
    v = signed sg (numeral_value ds) /\ in_int_range v.
Proof.
  split.
  - apply parse_number_success_sound.
  - intros [ws [sg [ds [-> [Hws [Hne [Hds [-> Hrange]]]]]]]].
    now apply parse_number_success_complete.
Qed.

(** X5. Parsing then extracting: [get_value (parse_number input)]
    returns [v] exactly when the input is white space, an optional sign
    and digits denoting [v] within [int]; on every other input it
    throws, and the message thrown is one of the three of the parser. *)
Theorem get_value_parse_number (m : data_model) (input : string) :
  (forall v,
     get_value (parse_number m input) = Returns v
     <->
     exists ws sg ds,
       input = ws ++ sign_text sg ++ ds /\
       all_spaces ws = true /\ ds <> "" /\ all_digits ds = true /\
       v = signed sg (numeral_value ds) /\ in_int_range v)
  /\
  (forall e,
     get_value (parse_number m input) = Throws e ->
     exists what, e = RuntimeError what /\ In what error_vocabulary).
Proof.
  split.
  - intros v. rewrite get_value_returns_iff. split.
    + apply parse_number_success_sound.
    + intros [ws [sg [ds [-> [Hws [Hne [Hds [-> Hrange]]]]]]]].
      now apply parse_number_success_complete.
  - intros e. unfold parse_number.
    destruct (stoi m input) as [[result pos] | [what | what]];
      [destruct (negb (pos =? String.length input)%nat) |..];
      cbn; intros E; try discriminate E; injection E as <-;
      eexists; (split; [reflexivity | cbn; auto]).
Qed.

(** X6. The result does not depend on the width of [long] of the
    target: the parser answers the same on all data models. *)
Theorem parse_number_same_on_all_targets
    (m1 m2 : data_model) (input : string) :
  parse_number m1 input = parse_number m2 input.
Proof.
  destruct (input_shape input)
    as [ws [sg [ds [rest [-> [Hws [Hsg [Hds Hrest]]]]]]]].
  destruct (string_dec ds "") as [-> | Hne].
  - cbn [append] in *.
    now rewrite !(parse_number_no_conversion _ ws sg rest Hws Hsg Hrest).
  - now rewrite !(parse_number_numeral _ ws sg ds rest Hws Hds Hne Hrest).
Qed.

(** X7. The two kinds of result in full: a success carries a value in
    the range of [int], and a failure carries zero and one of the three
    messages; there is no other result. *)
Theorem parse_number_outcomes (m : data_model) (input : string) :
  (exists v, parse_number m input = (v, "") /\ in_int_range v)
  \/
  (exists e, parse_number m input = (0, e) /\ In e error_vocabulary).
Proof.
  destruct (input_shape input)
    as [ws [sg [ds [rest [-> [Hws [Hsg [Hds Hrest]]]]]]]].
  destruct (string_dec ds "") as [-> | Hne].
  - right. exists "Invalid argument". split; [| cbn; auto].
    now apply parse_number_no_conversion.
  - rewrite (parse_number_numeral m ws sg ds rest Hws Hds Hne Hrest).
    destruct (Z.leb INT_MIN (signed sg (numeral_value ds))
              && Z.leb (signed sg (numeral_value ds)) INT_MAX) eqn:Hrange.
    + destruct (empty rest).
      * left. eexists. split; [reflexivity |].
        now apply in_int_range_leb.
      * right. eexists. split; [reflexivity | cbn; auto].
    + right. eexists. split; [reflexivity | cbn; auto].
Qed.

(** ** The container beyond a single call *)

Module ContainerMore.
Import Container.
Section WithElement.

Context {T : Type} `{EqualityComparable T}.

(** The scan of a sequence with one more element at its end. *)
Lemma contains_loop_snoc (value w : T) (l : list T) :
  forall i,
    contains_loop i (l ++ [w]) value =
    if fst (contains_loop i l value) then contains_loop i l value
    else if equal w value then (true, (i + List.length l)%nat)
    else (false, O).
Proof.
  induction l as [| x l IH]; intros i; cbn.
  - rewrite Nat.add_0_r. reflexivity.
  - destruct (equal x value); cbn; [reflexivity |].
    rewrite IH. replace (S i + List.length l)%nat with (i + S (List.length l))%nat by lia.
    reflexivity.
Qed.

Lemma contains_loop_flag (value : T) (l : list T) :
  forall i,
    fst (contains_loop i l value) = existsb (fun x => equal x value) l.
Proof.
  induction l as [| x l IH]; intros i; cbn; [reflexivity |].
  destruct (equal x value); cbn; [reflexivity | apply IH].
Qed.

Lemma contains_loop_meaning (value : T) (l : list T) :
  let '(found, i) := contains_loop O l value in
  if found then first_equal_at l value i
  else i = O /\ none_equal l value.
Proof.
  destruct (ContainerFacts.first_equal_or_none l value) as [[i Hi] | Hnone].
  - now rewrite (ContainerFacts.contains_loop_found value l O i Hi).
  - now rewrite (ContainerFacts.contains_loop_none value l Hnone O).
Qed.

End WithElement.
End ContainerMore.

(** X8. What a result of [contains] tells, on any container: with the
    flag set, the index is in range, the element there compares equal
    to the value and no earlier one does; with the flag clear, the index
    is zero and no element compares equal. *)
Theorem contains_result_meaning
    {T : Type} `{EqualityComparable T} (c : Container.t T) (v : T) :
  let '(found, i) := Container.contains v c in
  if found
  then (i < List.length (Container.data c))%nat /\
       Container.first_equal_at (Container.data c) v i
  else i = O /\ Container.none_equal (Container.data c) v.
Proof.
  unfold Container.contains.
  pose proof (ContainerMore.contains_loop_meaning v (Container.data c)) as M.
  destruct (Container.contains_loop O (Container.data c) v) as [[|] i];
    [| exact M].
  split; [| exact M].
  destruct M as [[x [Hx _]] _]. apply nth_error_Some. congruence.
Qed.

(** X9. [add] followed by [contains]: a value found before the [add] is
    found at the same index after it; a value not found before is found
    at the new last index when the added element compares equal to it,
    and is still not found otherwise. *)
Theorem contains_after_add
    {T : Type} `{EqualityComparable T} (c : Container.t T) (w v : T) :
  Container.contains v (snd (Container.add w c)) =
  if fst (Container.contains v c) then Container.contains v c
  else if equal w v then (true, List.length (Container.data c))
  else (false, O).
Proof.
  unfold Container.contains. cbn [Container.add snd Container.data].
  now rewrite ContainerMore.contains_loop_snoc.
Qed.

(** X10. After any sequence of [add] calls, the flag of [contains v] is
    set exactly when one of the added values compares equal to [v]. *)
Theorem contains_flag_after_adds
    {T : Type} `{EqualityComparable T} (values : list T) (v : T) :
  fst (Container.contains v (Container.after_adds values))
  = existsb (fun x => equal x v) values.
Proof.
  unfold Container.contains.
  now rewrite ContainerMore.contains_loop_flag, ContainerFacts.data_after_adds.
Qed.

(** X11. The read accessor after [add] calls: [get_data] is the old
    sequence followed by the added values, in the order of the calls
    and with repeated values kept; from a new container, exactly the
    added values. *)
Theorem get_data_after_adds
    {T : Type} (c : Container.t T) (values : list T) :
  Container.get_data
    (fold_left (fun c v => snd (Container.add v c)) values c)
  = (Container.get_data c ++ values)%list /\
  Container.get_data (Container.after_adds values) = values.
Proof.
  unfold Container.get_data. split.
  - apply ContainerFacts.data_fold_add.
  - apply ContainerFacts.data_after_adds.
Qed.

(** ** The demo class beyond the scenario *)

Module DemoMore.
Import ModernCppDemo.

(** The two ways a call of [add_if_not_exists] goes. *)
Lemma add_if_not_exists_cases (d : t) (item : string) :
  (In item (data d) /\
   (find (data d) item < List.length (data d))%nat /\
   add_if_not_exists item d = ((find (data d) item, false), d))
  \/
  (~ In item (data d) /\
   add_if_not_exists item d =
   ((List.length (data d), true), Make (data d ++ [item]))).
Proof.
  unfold add_if_not_exists.
  destruct (in_dec string_dec item (data d)) as [Hin | Hnot].
  - left. destruct (DemoFacts.find_present _ _ Hin) as [Hlt _].
    destruct (Nat.eqb_spec (find (data d) item) (List.length (data d)));
      [lia | now repeat split].
  - right. rewrite (DemoFacts.find_absent _ _ Hnot), Nat.eqb_refl.
    cbn [data]. rewrite List.length_app. cbn [List.length].
    split; [exact Hnot |]. repeat f_equal. lia.
Qed.

Lemma get_at_nth_error (index : nat) (d : t) :
  get_at index d = nth_error (data d) index.
Proof.
  unfold get_at. destruct (Nat.ltb_spec index (List.length (data d))) as [Hlt | Hge].
  - symmetry. now apply nth_error_nth'.
  - symmetry. now apply nth_error_None.
Qed.

Lemma append_inj_l (p a b : string) : p ++ a = p ++ b -> a = b.
Proof.
  induction p as [| c p IH]; cbn; intros E; [exact E |].
  injection E as E. now apply IH.
Qed.

Lemma eqb_append_l (p a b : string) :
  String.eqb (p ++ a) (p ++ b) = String.eqb a b.
Proof.
  destruct (String.eqb_spec a b) as [-> | Hne].
  - apply String.eqb_refl.
  - apply String.eqb_neq. intros E. now apply append_inj_l in E.
Qed.

Lemma find_map_prefix (p item : string) (l : list string) :
  find (map (fun x => p ++ x) l) (p ++ item) = find l item.
Proof.
  induction l as [| x l IH]; cbn; [reflexivity |].
  rewrite eqb_append_l. destruct (String.eqb x item); [reflexivity |].
  now rewrite IH.
Qed.

Lemma NoDup_snoc (l : list string) (x : string) :
  NoDup l -> ~ In x l -> NoDup (l ++ [x]).
Proof.
  intros Hl Hx. apply NoDup_app; [exact Hl | repeat constructor; intros [] |].
  intros y Hy [<- | []]. contradiction.
Qed.

Lemma find_snoc_absent (l : list string) (item : string) :
  ~ In item l -> find (l ++ [item]) item = List.length l.
Proof.
  induction l as [| x l IH]; intros Hnot; cbn.
  - now rewrite String.eqb_refl.
  - destruct (String.eqb_spec x item) as [-> | _].
    + exfalso. apply Hnot. now left.
    + f_equal. apply IH. intros Hin. apply Hnot. now right.
Qed.

Lemma data_add_if_not_exists (d : t) (item : string) :
  data (snd (add_if_not_exists item d)) =
  (data d ++ (if snd (fst (add_if_not_exists item d)) then [item] else []))%list.
Proof.
  destruct (add_if_not_exists_cases d item) as [[_ [_ ->]] | [_ ->]]; cbn.
  - now rewrite app_nil_r.
  - reflexivity.
Qed.

End DemoMore.

(** X12. [get_at] is the bounds-checked read: it gives the element at
    [index] when [index] is less than [size], and nothing from [size]
    on. *)
Theorem get_at_bounds (index : nat) (d : ModernCppDemo.t) :
  ModernCppDemo.get_at index d = nth_error (ModernCppDemo.data d) index /\
  ((index < ModernCppDemo.size d)%nat <->
   exists text, ModernCppDemo.get_at index d = Some text) /\
  ((ModernCppDemo.size d <= index)%nat <->
   ModernCppDemo.get_at index d = None).
Proof.
  rewrite DemoMore.get_at_nth_error. unfold ModernCppDemo.size.
  split; [reflexivity | split].
  - rewrite <- nth_error_Some.
    destruct (nth_error (ModernCppDemo.data d) index) as [text |]; split.
    + intros _. now exists text.
    + discriminate.
    + congruence.
    + intros [text E]. discriminate E.
  - symmetry. apply nth_error_None.
Qed.

(** X13. The index that [add_if_not_exists] returns can be read back:
    whether the item was added or was there already, [get_at] at the
    returned index of the resulting object gives the item. *)
Theorem add_if_not_exists_get_at (d : ModernCppDemo.t) (item : string) :
  let '((index, _), d') := ModernCppDemo.add_if_not_exists item d in
  ModernCppDemo.get_at index d' = Some item.
Proof.
  destruct (DemoMore.add_if_not_exists_cases d item) as [[Hin [_ ->]] | [_ ->]];
    rewrite DemoMore.get_at_nth_error.
  - now destruct (DemoFacts.find_present _ _ Hin) as [_ [Hnth _]].
  - cbn [ModernCppDemo.data].
    rewrite nth_error_app2, Nat.sub_diag by lia. reflexivity.
Qed.

(** X14. [add_if_not_exists] never removes or moves anything: the size
    grows by one when the returned flag is set and stays when it is
    clear, and every index that was in range reads as before. *)
Theorem add_if_not_exists_grows (d : ModernCppDemo.t) (item : string) :
  let '((_, added), d') := ModernCppDemo.add_if_not_exists item d in
  ModernCppDemo.size d' =
  (ModernCppDemo.size d + (if added then 1 else 0))%nat /\
  (forall j, (j < ModernCppDemo.size d)%nat ->
             ModernCppDemo.get_at j d' = ModernCppDemo.get_at j d).
Proof.
  unfold ModernCppDemo.size.
  destruct (DemoMore.add_if_not_exists_cases d item) as [[_ [_ ->]] | [_ ->]].
  - split; [lia | reflexivity].
  - cbn [ModernCppDemo.data]. rewrite List.length_app. cbn [List.length].
    split; [reflexivity |]. intros j Hj.
    rewrite !DemoMore.get_at_nth_error. cbn [ModernCppDemo.data].
    now apply nth_error_app1.
Qed.

(** X15. A repeated [add_if_not_exists] of the same item changes
    nothing more: the second call returns the index the first one
    returned, with the flag clear, and leaves the object as the first
    call left it. *)
Theorem add_if_not_exists_twice (d : ModernCppDemo.t) (item : string) :
  let '((index, _), d') := ModernCppDemo.add_if_not_exists item d in
  ModernCppDemo.add_if_not_exists item d' = ((index, false), d').
Proof.
  destruct (DemoMore.add_if_not_exists_cases d item)
    as [[Hin [_ E]] | [Hnot E]]; rewrite E.
  - exact E.
  - unfold ModernCppDemo.add_if_not_exists. cbn [ModernCppDemo.data].
    rewrite (DemoMore.find_snoc_absent _ _ Hnot), List.length_app.
    cbn [List.length].
    destruct (Nat.eqb_spec (List.length (ModernCppDemo.data d))
                (List.length (ModernCppDemo.data d) + 1)); [lia | reflexivity].
Qed.

(** X16. [add_if_not_exists] keeps a list without repetitions free of
    them, so an object filled from the empty one by such calls alone
    never holds an item twice. *)
Theorem add_if_not_exists_NoDup :
  (forall d item,
     NoDup (ModernCppDemo.data d) ->
     NoDup (ModernCppDemo.data (snd (ModernCppDemo.add_if_not_exists item d))))
  /\
  (forall items, NoDup (ModernCppDemo.data (add_all items ModernCppDemo.new))).
Proof.
  assert (Step : forall d item,
             NoDup (ModernCppDemo.data d) ->
             NoDup (ModernCppDemo.data
                      (snd (ModernCppDemo.add_if_not_exists item d)))).
  { intros d item Hd.
    destruct (DemoMore.add_if_not_exists_cases d item)
      as [[_ [_ ->]] | [Hnot ->]]; cbn; [exact Hd |].
    now apply DemoMore.NoDup_snoc. }
  split; [exact Step |].
  intros items. unfold add_all.
  assert (Gen : forall d, NoDup (ModernCppDemo.data d) ->
                          NoDup (ModernCppDemo.data
                                   (fold_left
                                      (fun d item =>
                                         snd (ModernCppDemo.add_if_not_exists item d))
                                      items d))).
  { induction items as [| item items IH]; intros d Hd; cbn [fold_left].
    - exact Hd.
    - apply IH, Step, Hd. }
  apply Gen. constructor.
Qed.

(** X17. After [add_if_not_exists] on each of [items], the list holds
    what it held before and the items, and nothing else. *)
Theorem add_all_members
    (items : list string) (d : ModernCppDemo.t) (x : string) :
  In x (ModernCppDemo.data (add_all items d))
  <-> In x (ModernCppDemo.data d) \/ In x items.
Proof.
  unfold add_all. revert d.
  induction items as [| item items IH]; intros d; cbn [fold_left].
  - cbn. tauto.
  - rewrite IH, DemoMore.data_add_if_not_exists, in_app_iff.
    destruct (DemoMore.add_if_not_exists_cases d item)
      as [[Hin [_ ->]] | [_ ->]]; cbn.
    + split; [tauto |]. intros [Hd | [<- | Hx]]; tauto.
    + tauto.
Qed.

Module TransformFacts.
Import ModernCppDemo.

Lemma NoDup_map_prefix (p : string) (l : list string) :
  NoDup l -> NoDup (map (fun item => p ++ item) l).
Proof.
  induction 1 as [| x l Hx Hl IH]; cbn; constructor; [| exact IH].
  intros Hin. apply in_map_iff in Hin as [y [E Hy]].
  apply DemoMore.append_inj_l in E as ->. contradiction.
Qed.

Lemma data_transform_all (p : string) (d : t) :
  data (snd (transform_all p d)) = map (fun item => p ++ item) (data d).
Proof. reflexivity. Qed.

End TransformFacts.

(** X18. [transform_all] keeps the size and the places: each index
    reads the prefix followed by what it read before, and an index out
    of range stays out of range. *)
Theorem transform_all_get_at (prefix : string) (d : ModernCppDemo.t) :
  ModernCppDemo.size (snd (ModernCppDemo.transform_all prefix d))
  = ModernCppDemo.size d /\
  forall index,
    ModernCppDemo.get_at index (snd (ModernCppDemo.transform_all prefix d))
    = option_map (fun item => prefix ++ item) (ModernCppDemo.get_at index d).
Proof.
  unfold ModernCppDemo.size.
  rewrite TransformFacts.data_transform_all, List.length_map.
  split; [reflexivity |]. intros index.
  rewrite !DemoMore.get_at_nth_error, TransformFacts.data_transform_all.
  apply nth_error_map.
Qed.

(** X19. Two [transform_all] calls in a row are one call with the two
    prefixes joined, the later one in front; and the empty prefix
    changes nothing. *)
Theorem transform_all_compose (p1 p2 : string) (d : ModernCppDemo.t) :
  snd (ModernCppDemo.transform_all p2 (snd (ModernCppDemo.transform_all p1 d)))
  = snd (ModernCppDemo.transform_all (p2 ++ p1) d) /\
  snd (ModernCppDemo.transform_all "" d) = d.
Proof.
  destruct d as [l]. cbn [ModernCppDemo.transform_all snd ModernCppDemo.data].
  split; f_equal.
  - rewrite map_map. apply map_ext. intros item.
    symmetry. apply string_app_assoc.
  - cbn [append]. apply map_id.
Qed.

(** X20. [transform_all] neither merges nor splits items: the list has
    a repeated item after the call exactly when it had one before. *)
Theorem transform_all_NoDup (prefix : string) (d : ModernCppDemo.t) :
  NoDup (ModernCppDemo.data (snd (ModernCppDemo.transform_all prefix d)))
  <-> NoDup (ModernCppDemo.data d).
Proof.
  rewrite TransformFacts.data_transform_all. split.
  - apply NoDup_map_inv.
  - apply TransformFacts.NoDup_map_prefix.
Qed.

(** X21. Prefixing and adding commute: [transform_all prefix] followed
    by [add_if_not_exists] of the prefixed item returns the same index
    and flag, and ends in the same object, as [add_if_not_exists] of
    the item followed by [transform_all prefix]. *)
Theorem transform_all_add_if_not_exists
    (prefix item : string) (d : ModernCppDemo.t) :
  (ModernCppDemo.transform_all prefix ;;;
   ModernCppDemo.add_if_not_exists (prefix ++ item))%state d
  =
  (r <- ModernCppDemo.add_if_not_exists item ;;
   ModernCppDemo.transform_all prefix ;;;
   ret r)%state d.
Proof.
  unfold bind, ret, ModernCppDemo.transform_all, ModernCppDemo.add_if_not_exists.
  cbn [ModernCppDemo.data].
  rewrite DemoMore.find_map_prefix, List.length_map.
  destruct (ModernCppDemo.find (ModernCppDemo.data d) item
            =? List.length (ModernCppDemo.data d))%nat; cbn [ModernCppDemo.data].
  - rewrite !List.length_app, List.length_map, map_app. reflexivity.
  - reflexivity.
Qed.

(** ** What the driver writes *)

Module DriverFacts.
Import Driver.

Lemma writes_ret {A : Type} (r : A) : writes (ret r) r "".
Proof. intros out. unfold ret. now rewrite append_empty_r. Qed.

Lemma writes_put (s : string) : writes (put s) tt s.
Proof. intros out. reflexivity. Qed.

Lemma writes_bind {A B : Type}
    (c : State ostream A) (k : A -> State ostream B)
    (a : A) (b : B) (t1 t2 : string) :
  writes c a t1 -> writes (k a) b t2 -> writes (bind c k) b (t1 ++ t2).
Proof.
  intros Hc Hk out. unfold bind. rewrite Hc, Hk.
  now rewrite string_app_assoc.
Qed.

Lemma writes_text {A : Type}
    (c : State ostream A) (r : A) (t t' : string) :
  writes c r t -> t = t' -> writes c r t'.
Proof. now intros Hc <-. Qed.

Lemma writes_print_info_loop (args : list string) :
  forall i, writes (print_info_loop i args) tt (argument_lines i args).
Proof.
  induction args as [| arg args IH]; intros i; cbn [print_info_loop argument_lines].
  - apply writes_ret.
  - eapply writes_text.
    + repeat (eapply writes_bind; [apply writes_put |]). apply IH.
    + unfold argument_line. now rewrite !string_app_assoc.
Qed.

Lemma writes_print_info (args : list string) :
  writes (print_info args) tt (print_info_text args).
Proof.
  unfold print_info, print_info_text. eapply writes_text.
  - repeat (eapply writes_bind; [apply writes_put |]).
    apply writes_print_info_loop.
  - now rewrite !string_app_assoc.
Qed.

Lemma writes_print (d : ModernCppDemo.t) :
  writes (print d) tt (item_lines (ModernCppDemo.data d)).
Proof.
  unfold print.
  induction (ModernCppDemo.data d) as [| item items IH];
    cbn [print_items item_lines].
  - apply writes_ret.
  - repeat (eapply writes_bind; [apply writes_put |]). apply IH.
Qed.

Ltac writes_step :=
  first [ apply writes_ret | apply writes_put | apply writes_print
        | eapply writes_bind ].

Lemma collect_args_eq (argv : list string) : collect_args argv = argv.
Proof.
  unfold collect_args.
  assert (Gen : forall acc,
             fold_left (fun args a => (args ++ [a])%list) argv acc
             = (acc ++ argv)%list).
  { induction argv as [| a argv IH]; intros acc; cbn [fold_left].
    - now rewrite app_nil_r.
    - now rewrite IH, <- app_assoc. }
  apply Gen.
Qed.

End DriverFacts.

(** X22. [print_info] appends to the stream, after whatever was written
    before, the line with the number of arguments and then one line for
    each argument, in order, numbered from zero. *)
Theorem print_info_output (args : list string) (out : Driver.ostream) :
  Driver.print_info args out =
  (tt,
   out ++ "Running with " ++ Driver.decimal (List.length args)
       ++ " arguments" ++ Driver.nl
       ++ Driver.argument_lines O args)
  /\
  forall i arg rest,
    Driver.argument_lines i (arg :: rest) =
    "Argument " ++ Driver.decimal i ++ ": " ++ arg ++ Driver.nl
    ++ Driver.argument_lines (S i) rest.
Proof.
  split.
  - apply DriverFacts.writes_print_info.
  - intros i arg rest. cbn [Driver.argument_lines]. unfold Driver.argument_line.
    now rewrite !string_app_assoc.
Qed.

(** X23. [main] returns 0 for every argument list, and writes the
    greeting, the lines of [print_info] for the arguments, and then a
    transcript of the demo that does not depend on the arguments. *)
Theorem main_output (argv : list string) (out : Driver.ostream) :
  Driver.main argv out =
  (0,
   out ++ "Hello from Modern C++ Cross-Compilation Example!" ++ Driver.nl
       ++ Driver.print_info_text argv
       ++ Driver.demo_transcript).
Proof.
  revert out. change (Driver.writes (Driver.main argv) 0
    ("Hello from Modern C++ Cross-Compilation Example!" ++ Driver.nl
       ++ Driver.print_info_text argv ++ Driver.demo_transcript)).
  unfold Driver.main. rewrite DriverFacts.collect_args_eq.
  eapply DriverFacts.writes_text.
  - eapply DriverFacts.writes_bind; [apply DriverFacts.writes_put |].
    eapply DriverFacts.writes_bind; [apply DriverFacts.writes_print_info |].
    cbn -[Driver.put Driver.print bind ret append Driver.decimal Driver.nl].
    repeat DriverFacts.writes_step.
  - rewrite !string_app_assoc. reflexivity.
Qed.

(** ** The container and the demo class side by side *)

Lemma contains_loop_find (item : string) (l : list string) :
  forall i,
    Container.contains_loop i l item =
    if (ModernCppDemo.find l item =? List.length l)%nat
    then (false, O)
    else (true, (i + ModernCppDemo.find l item)%nat).
Proof.
  induction l as [| x l IH]; intros i; cbn; [reflexivity |].
  destruct (String.eqb x item); cbn.
  - now rewrite Nat.add_0_r.
  - rewrite IH.
    destruct (ModernCppDemo.find l item =? List.length l)%nat;
      [reflexivity | f_equal; lia].
Qed.

(** X24. On the same list of strings, [Container::contains] and
    [ModernCppDemo::add_if_not_exists] agree: the item is found by the
    one exactly when it is not added by the other, and then at the same
    index; when it is added, [contains] had answered [(false, 0)]. *)
Theorem contains_agrees_with_add_if_not_exists
    (l : list string) (item : string) :
  let '((index, added), _) :=
    ModernCppDemo.add_if_not_exists item (ModernCppDemo.Make l) in
  Container.contains item (Container.Make l)
  = (negb added, if added then O else index).
Proof.
  unfold Container.contains, ModernCppDemo.add_if_not_exists.
  cbn [Container.data ModernCppDemo.data].
  rewrite contains_loop_find.
  destruct (ModernCppDemo.find l item =? List.length l)%nat; reflexivity.
Qed.
